(** * Typed cell identifiers of the notebook frontend

    A shallow embedding of [frontend/src/core/model/ids.ts]: the module-level
    [counter], the [CellId] provider ([create], [reset]) and the [HTMLCellId]
    helpers ([create], [parse], [findElement]), followed by the properties
    of the identifier scheme.

    - JavaScript numbers are IEEE 754 binary64 values.  The counter only ever
      holds non-negative integers, so it is a [Z] together with the rounding
      of binary64 written out ([f64_round]).
    - Strings are [String.string] where every position is a character of
      the ASCII range, as in identifiers, anchors and key names; [slice]
      and template literals act on them position by position.  What
      [parse] does on an arbitrary string is stated on the string's UTF-16
      code units ([UTF16]), the positions [slice] counts in.
    - The module-level [let counter] is threaded explicitly through a small
      state monad [M].
    - A DOM element is seen through what [Element.closest] reads: its local
      name, its attributes and its parent element.
    - [prettyPrintHotkey] of the shortcut renderer is embedded with the
      string methods it calls; what the imported [isPlatformMac()] returns
      is a parameter. *)

From Stdlib Require Import ZArith List String Ascii Bool Lia Sorted.
From Stdlib Require Import DecimalString DecimalPos DecimalZ.
Import ListNotations.

Local Open Scope string_scope.
Local Open Scope Z_scope.

(** ** JavaScript numbers holding integers *)

Module Number.

(** [2^53]: from here on binary64 no longer represents every integer. *)
Definition TWO_53 : Z := 9007199254740992.

(** Round-to-nearest, ties-to-even, of a non-negative integer to the
    nearest binary64 value (53 significant bits).  Below [2^53] every
    integer is representable; above, the spacing of representable values
    is [2^e] with [e = log2 z - 52]. *)
Definition f64_round (z : Z) : Z :=
  if z <? TWO_53 then z
  else
    let e := Z.log2 z - 52 in
    let q := Z.shiftr z e in
    let r := z - Z.shiftl q e in
    let half := Z.shiftl 1 (e - 1) in
    let q' :=
      if r <? half then q
      else if half <? r then q + 1
      else if Z.even q then q else q + 1 in
    Z.shiftl q' e.

(** [x + y] on numbers whose values are non-negative integers. *)
Definition add (x y : Z) : Z := f64_round (x + y).

(** [Number.prototype.toString()] in radix 10 on an integer of magnitude
    up to [2^53], the values the counter takes: the decimal digits, with a
    leading minus sign for a negative value. *)
Definition toString (x : Z) : string :=
  NilZero.string_of_int (Z.to_int x).

(** Reading a decimal numeral back as an integer. *)
Definition ofString (s : string) : option Z :=
  option_map Z.of_int (NilZero.int_of_string s).

End Number.

(** ** Module state and the monad that threads it *)

Record State : Type := mkState { counter : Z }.

(** [let counter = 0;] *)
Definition initial : State := {| counter := 0 |}.

Definition M (A : Type) : Type := State -> A * State.

Definition ret {A : Type} (a : A) : M A := fun s => (a, s).

Definition bind {A B : Type} (m : M A) (k : A -> M B) : M B :=
  fun s => let (a, s') := m s in k a s'.

Definition get_counter : M Z := fun s => (counter s, s).

Definition set_counter (v : Z) : M unit := fun _ => (tt, {| counter := v |}).

Notation "x <- m ;; k" := (bind m (fun x => k))
  (at level 61, m at next level, right associativity).
Notation "m ;;; k" := (bind m (fun _ => k))
  (at level 61, right associativity).

Definition evalM {A : Type} (m : M A) (s : State) : A := fst (m s).
Definition execM {A : Type} (m : M A) (s : State) : State := snd (m s).

(** [counter++]: the value of the expression is the old value; the stored
    value is the old value plus one, as a number. *)
Definition post_increment : M Z :=
  old <- get_counter ;;
  set_counter (Number.add old 1) ;;;
  ret old.

(** ** [CellId] *)

Module CellId.

(** [create(): CellId { const next = counter++; return next.toString(); }] *)
Definition create : M string :=
  next <- post_increment ;;
  ret (Number.toString next).

(** [reset() { counter = 0; }] *)
Definition reset : M unit := set_counter 0.

End CellId.

(** [n] successive calls of an operation, collecting the results in call
    order. *)
Fixpoint repeatM {A : Type} (n : nat) (m : M A) : M (list A) :=
  match n with
  | O => ret []
  | S n' => a <- m ;; rest <- repeatM n' m ;; ret (a :: rest)
  end.

(** The states the module can be in: the one it is loaded with, and what
    [create] and [reset] make of a state it can be in. *)
Inductive reachable : State -> Prop :=
| reachable_initial : reachable initial
| reachable_create s : reachable s -> reachable (execM CellId.create s)
| reachable_reset s : reachable s -> reachable (execM CellId.reset s).

(** ** Strings *)

Module JSString.

(** The string without its first [n] positions. *)
Fixpoint drop (n : nat) (s : string) : string :=
  match n, s with
  | O, _ => s
  | S _, EmptyString => EmptyString
  | S n', String _ s' => drop n' s'
  end.

(** [String.prototype.slice(start)] with [end] omitted: a negative
    [start] counts from the end, the bounds are clamped to the string, and
    an empty range gives the empty string.  Positions are those of the
    [string], which are the code units [slice] counts in when the
    characters are of the ASCII range; [UTF16.slice] is the same method on
    code units. *)
Definition slice (s : string) (start : Z) : string :=
  let len := Z.of_nat (String.length s) in
  let from := if start <? 0 then Z.max (len + start) 0 else Z.min start len in
  let to := len in
  if to <=? from then ""
  else substring (Z.to_nat from) (Z.to_nat (to - from)) s.

End JSString.

(** ** The part of the DOM that [Element.closest] reads *)

#[warnings="-register-all"]
Inductive Element : Type := mkElement {
  localName : string;
  attributes : list (string * string);
  parentElement : option Element
}.

(** [element.getAttribute(name)]: the value of the first attribute of that
    name. *)
Definition getAttribute (e : Element) (name : string) : option string :=
  option_map snd (find (fun kv => String.eqb (fst kv) name) (attributes e)).

(** The selectors [closest] is called with: a compound of simple selectors,
    each a type selector [E] or an attribute prefix selector [[att^="val"]]. *)
Inductive simple_selector : Type :=
| TypeSelector (name : string)
| AttrPrefix (att val : string).

Definition compound_selector : Type := list simple_selector.

(** [E] matches an element of that local name; [[att^="val"]] an element
    with an [att] attribute whose value begins with [val], and nothing when
    [val] is empty. *)
Definition matches_simple (e : Element) (sel : simple_selector) : bool :=
  match sel with
  | TypeSelector name => String.eqb (localName e) name
  | AttrPrefix att val =>
      match getAttribute e att with
      | Some v => negb (String.eqb val "") && prefix val v
      | None => false
      end
  end.

Definition matches (sel : compound_selector) (e : Element) : bool :=
  forallb (matches_simple e) sel.

(** [element.closest(selectors)]: the first inclusive ancestor, starting at
    the element itself, that matches; [None] stands for [null]. *)
Fixpoint closest (sel : compound_selector) (e : Element) : option Element :=
  if matches sel e then Some e
  else
    match parentElement e with
    | Some p => closest sel p
    | None => None
    end.

(** The element, its parent, its parent's parent, and so on up to the
    root. *)
Fixpoint inclusive_ancestors (e : Element) : list Element :=
  e :: match parentElement e with
       | Some p => inclusive_ancestors p
       | None => []
       end.

(** ** Strings as UTF-16 code units *)

Module UTF16.

(** A code unit is a 16-bit value; a JavaScript string is a sequence of
    code units, and its [length] and the positions of [slice] count
    them. *)
Definition code_unit : Type := N.

Definition js_string : Type := list code_unit.

(** [String.prototype.slice(start)] with [end] omitted, on the code
    units. *)
Definition slice (s : js_string) (start : Z) : js_string :=
  let len := Z.of_nat (List.length s) in
  let from := if start <? 0 then Z.max (len + start) 0 else Z.min start len in
  let to := len in
  if to <=? from then []
  else firstn (Z.to_nat (to - from)) (skipn (Z.to_nat from) s).

(** The code units of a string of the ASCII range: one for each
    character, its code. *)
Fixpoint of_ascii_string (s : string) : js_string :=
  match s with
  | EmptyString => []
  | String c s' => N_of_ascii c :: of_ascii_string s'
  end.

End UTF16.

(** ** [HTMLCellId] *)

Module HTMLCellId.

(** [create(cellId) { return `cell-${cellId}`; }] *)
Definition create (cellId : string) : string := "cell-" ++ cellId.

(** [parse(htmlCellId) { return htmlCellId.slice(5); }] *)
Definition parse (htmlCellId : string) : string :=
  JSString.slice htmlCellId 5.

(** [parse] on an argument given by its code units: the same body,
    [htmlCellId.slice(5)]. *)
Definition parse_units (htmlCellId : UTF16.js_string) : UTF16.js_string :=
  UTF16.slice htmlCellId 5.

(** The selector [div[id^="cell-"]]. *)
Definition cell_container : compound_selector :=
  [TypeSelector "div"; AttrPrefix "id" "cell-"].

(** [findElement(element) { return element.closest('div[id^="cell-"]'); }] *)
Definition findElement (element : Element) : option Element :=
  closest cell_container element.

End HTMLCellId.

(** ** Calls into the module

    Every exported function as a computation over the module state, so that
    what a call does to [counter] can be stated for all of them alike. *)

Inductive call : Type :=
| CellId_create
| CellId_reset
| HTMLCellId_create (cellId : string)
| HTMLCellId_parse (htmlCellId : string)
| HTMLCellId_findElement (element : Element).

Inductive value : Type :=
| VUndefined
| VString (s : string)
| VElement (e : option Element).

Definition perform (c : call) : M value :=
  match c with
  | CellId_create => id <- CellId.create ;; ret (VString id)
  | CellId_reset => CellId.reset ;;; ret VUndefined
  | HTMLCellId_create cellId => ret (VString (HTMLCellId.create cellId))
  | HTMLCellId_parse htmlCellId => ret (VString (HTMLCellId.parse htmlCellId))
  | HTMLCellId_findElement element => ret (VElement (HTMLCellId.findElement element))
  end.

(** ** Vocabulary of the properties *)

(** The identifiers of [n] calls of [create] made right after a [reset],
    whatever the state before. *)
Definition ids_after_reset (n : nat) (s : State) : list string :=
  evalM (CellId.reset ;;; repeatM n CellId.create) s.

(** Identifiers in mint order are strictly increasing as numbers: a later
    one reads as a larger number than an earlier one. *)
Definition strictly_increasing_ids (ids : list string) : Prop :=
  forall (i j : nat) (x y : string),
    (i < j)%nat ->
    nth_error ids i = Some x ->
    nth_error ids j = Some y ->
    exists a b : Z,
      Number.ofString x = Some a /\ Number.ofString y = Some b /\ 0 <= a < b.

(** The value the counter holds [i] calls of [create] after holding
    [c]. *)
Definition counter_after (c : Z) (i : nat) : Z :=
  Z.min (c + Z.of_nat i) Number.TWO_53.

(** A well-formed DOM anchor identifier begins with ["cell-"]. *)
Definition well_formed_anchor (x : string) : bool := prefix "cell-" x.

(** The element carries an identifier of the DOM-anchor format. *)
Definition has_anchor_id (e : Element) : bool :=
  match getAttribute e "id" with
  | Some v => well_formed_anchor v
  | None => false
  end.

(** The element is a [div] carrying an identifier of the DOM-anchor
    format. *)
Definition is_cell_div (e : Element) : bool :=
  String.eqb (localName e) "div" && has_anchor_id e.

(** [a] is the nearest inclusive ancestor of [e] that satisfies [p]. *)
Definition nearest_ancestor (p : Element -> bool) (e a : Element) : Prop :=
  exists closer further,
    inclusive_ancestors e = (closer ++ a :: further)%list /\
    p a = true /\
    Forall (fun x => p x = false) closer.

(** Some sample documents. *)
Module Samples.

Definition el (name : string) (attrs : list (string * string))
    (parent : option Element) : Element :=
  {| localName := name; attributes := attrs; parentElement := parent |}.

Definition body : Element := el "body" [] None.

(** [<body><div id="cell-2"><div class="output"><p><span/></p></div></div></body>] *)
Definition cell2 : Element := el "div" [("id", "cell-2")] (Some body).
Definition output : Element := el "div" [("class", "output")] (Some cell2).
Definition para : Element := el "p" [] (Some output).
Definition span : Element := el "span" [] (Some para).

(** [<body><section id="cell-2"><p/></section></body>] *)
Definition section2 : Element := el "section" [("id", "cell-2")] (Some body).
Definition para_in_section : Element := el "p" [] (Some section2).

(** [<body><div id="app"><button/></div></body>] *)
Definition app : Element := el "div" [("id", "app")] (Some body).
Definition button : Element := el "button" [] (Some app).

End Samples.

(** ** Hotkey labels

    [prettyPrintHotkey] of the shortcut renderer, with the string methods it
    calls. *)

Module Str.

(** One position of [toLowerCase()] in the ASCII range: [A] to [Z] go to
    [a] to [z], every other character stays. *)
Definition lower_char (c : ascii) : ascii :=
  let n := nat_of_ascii c in
  if ((65 <=? n) && (n <=? 90))%nat then ascii_of_nat (n + 32) else c.

(** [String.prototype.toLowerCase()] on a string of the ASCII range.
    Outside that range JavaScript goes by the Unicode tables, which are not
    part of this development; statements about [toLowerCase] say
    [is_ascii] of their input. *)
Fixpoint toLowerCase (s : string) : string :=
  match s with
  | EmptyString => EmptyString
  | String c s' => String (lower_char c) (toLowerCase s')
  end.

Fixpoint is_ascii (s : string) : bool :=
  match s with
  | EmptyString => true
  | String c s' => (nat_of_ascii c <? 128)%nat && is_ascii s'
  end.

(** [String.prototype.split(separator)] for a separator of one character
    and no limit: the pieces between the separators, in order; the empty
    string gives one empty piece. *)
Fixpoint split (sep : ascii) (s : string) : list string :=
  match s with
  | EmptyString => [EmptyString]
  | String c s' =>
      if Ascii.eqb c sep then EmptyString :: split sep s'
      else
        match split sep s' with
        | piece :: pieces => String c piece :: pieces
        | [] => [String c EmptyString]
        end
  end.

(** How often the character occurs in the string. *)
Fixpoint count_char (c : ascii) (s : string) : nat :=
  match s with
  | EmptyString => O
  | String a s' => (if Ascii.eqb a c then 1 else 0) + count_char c s'
  end.

End Str.

Module Hotkey.

(** The symbols of the Mac keyboard: U+2318, U+2325 and U+2303. *)
Definition COMMAND : string := "⌘".
Definition OPTION : string := "⌥".
Definition CONTROL : string := "⌃".

(** The callback of [map]: the [switch] over [key.toLowerCase()].
    [isPlatformMac] stands for what the imported [isPlatformMac()]
    returns. *)
Definition key_label (isPlatformMac : bool) (key : string) : string :=
  let k := Str.toLowerCase key in
  if String.eqb k "cmd" then COMMAND
  else if String.eqb k "meta" then (if isPlatformMac then COMMAND else "ctrl")
  else if String.eqb k "shift" then "shift"
  else if String.eqb k "alt" then (if isPlatformMac then OPTION else "alt")
  else if String.eqb k "control" || String.eqb k "ctrl"
       then (if isPlatformMac then CONTROL else "ctrl")
  else k.

(** [prettyPrintHotkey(keyboard) { return keyboard.split("-").map(...); }] *)
Definition prettyPrintHotkey (isPlatformMac : bool) (keyboard : string)
    : list string :=
  map (key_label isPlatformMac) (Str.split "-" keyboard).

(** The key names whose label is the same on every platform: all but
    [meta], [alt], [control] and [ctrl]. *)
Definition platform_neutral (key : string) : bool :=
  let k := Str.toLowerCase key in
  negb (String.eqb k "meta" || String.eqb k "alt" ||
        String.eqb k "control" || String.eqb k "ctrl").

End Hotkey.

(** ** Further vocabulary *)

(** The string is a decimal numeral: not empty, digits only. *)
Definition is_digit (c : ascii) : bool :=
  ((48 <=? nat_of_ascii c) && (nat_of_ascii c <=? 57))%nat.

Fixpoint all_digits (s : string) : bool :=
  match s with
  | EmptyString => true
  | String c s' => is_digit c && all_digits s'
  end.

Definition is_numeral (s : string) : bool :=
  negb (String.eqb s "") && all_digits s.

(** A run with a reset in the middle: [n] identifiers, a reset, then [m]
    more. *)
Definition ids_across_reset (n m : nat) : M (list string * list string) :=
  CellId.reset ;;;
  before <- repeatM n CellId.create ;;
  CellId.reset ;;;
  after <- repeatM m CellId.create ;;
  ret (before, after).

(** The state in which the counter has reached [2^53]. *)
Definition saturated : State := {| counter := Number.TWO_53 |}.

(** * Properties *)

(** ** Numbers *)

Section NumberFacts.

Import Number.

Lemma f64_round_exact z : z <= TWO_53 -> f64_round z = z.
Proof.
  intros Hz. unfold f64_round.
  destruct (z <? TWO_53) eqn:Hlt; [reflexivity|].
  apply Z.ltb_ge in Hlt.
  assert (z = TWO_53) as -> by lia.
  vm_compute. reflexivity.
Qed.

(** Below [2^53] adding one is exact. *)
Lemma add_one_exact c : c < TWO_53 -> add c 1 = c + 1.
Proof. intros Hc. unfold add. apply f64_round_exact. lia. Qed.

(** At [2^53] adding one is absorbed: [2^53 + 1] lies halfway between two
    representable values and the tie goes to the even one, [2^53]. *)
Lemma add_one_absorbed : add TWO_53 1 = TWO_53.
Proof. vm_compute. reflexivity. Qed.

Lemma add_one_min c : c <= TWO_53 -> add c 1 = Z.min (c + 1) TWO_53.
Proof.
  intros Hc. destruct (Z.eq_dec c TWO_53) as [->|Hne].
  - rewrite add_one_absorbed. vm_compute. reflexivity.
  - rewrite add_one_exact by lia. lia.
Qed.

Lemma to_int_proper z : Z.to_int z <> Decimal.Pos Decimal.Nil /\
                        Z.to_int z <> Decimal.Neg Decimal.Nil.
Proof.
  destruct z as [|p|p]; simpl; split; try discriminate;
    intros [= H]; revert H; apply DecimalPos.Unsigned.to_uint_nonnil.
Qed.

Lemma ofString_toString z : ofString (toString z) = Some z.
Proof.
  unfold ofString, toString.
  destruct (to_int_proper z) as [Hp Hn].
  rewrite NilZero.isi by assumption.
  simpl. now rewrite DecimalZ.of_to.
Qed.

Lemma toString_inj x y : toString x = toString y -> x = y.
Proof.
  intros H. apply (f_equal ofString) in H.
  rewrite !ofString_toString in H. congruence.
Qed.

End NumberFacts.

(** ** Minting *)

Section Minting.

Import Number.

Lemma create_run s :
  counter s <= TWO_53 ->
  CellId.create s =
    (toString (counter s), {| counter := Z.min (counter s + 1) TWO_53 |}).
Proof.
  intros Hs. unfold CellId.create, post_increment, bind, get_counter,
    set_counter, ret.
  now rewrite add_one_min.
Qed.

Lemma reset_run s : CellId.reset s = (tt, initial).
Proof. reflexivity. Qed.

Lemma repeatM_S {A} n (m : M A) s :
  repeatM (S n) m s =
    (fst (m s) :: fst (repeatM n m (snd (m s))),
     snd (repeatM n m (snd (m s)))).
Proof.
  simpl. unfold bind, ret.
  destruct (m s) as [a s']. simpl.
  now destruct (repeatM n m s').
Qed.

(** What [n] calls of [create] return, from a counter value in range. *)
Lemma repeat_create n : forall s,
  0 <= counter s <= TWO_53 ->
  evalM (repeatM n CellId.create) s =
    map (fun i => toString (counter_after (counter s) i)) (seq 0 n).
Proof.
  unfold evalM.
  induction n as [|n IH]; intros s Hs; [reflexivity|].
  rewrite repeatM_S, create_run by lia.
  cbn [fst snd]. rewrite IH by (cbn [counter]; lia).
  cbn [seq map counter]. f_equal.
  - unfold counter_after. f_equal. change (Z.of_nat 0) with 0. lia.
  - rewrite <- seq_shift, map_map. apply map_ext.
    intros i. unfold counter_after. f_equal. lia.
Qed.

Lemma ids_after_reset_eq n s :
  ids_after_reset n s = map (fun i => toString (counter_after 0 i)) (seq 0 n).
Proof.
  unfold ids_after_reset, evalM, bind. rewrite reset_run.
  change (fst (repeatM n CellId.create initial))
    with (evalM (repeatM n CellId.create) initial).
  rewrite repeat_create; [reflexivity|].
  unfold TWO_53. cbn [counter initial]. lia.
Qed.

Lemma ids_after_reset_fresh n s :
  ids_after_reset n s = evalM (repeatM n CellId.create) initial.
Proof. unfold ids_after_reset, evalM, bind. now rewrite reset_run. Qed.

Lemma ids_after_reset_nth n s i :
  (i < n)%nat ->
  nth_error (ids_after_reset n s) i = Some (toString (counter_after 0 i)).
Proof.
  intros Hi. rewrite ids_after_reset_eq, nth_error_map, nth_error_seq.
  destruct (Nat.ltb_spec i n); [reflexivity|lia].
Qed.

Lemma ids_after_reset_length n s : List.length (ids_after_reset n s) = n.
Proof. now rewrite ids_after_reset_eq, length_map, length_seq. Qed.

Lemma reachable_range s : reachable s -> 0 <= counter s <= TWO_53.
Proof.
  induction 1 as [|s _ IH|s _ IH].
  - unfold TWO_53. cbn. lia.
  - unfold execM. rewrite create_run by lia. cbn [snd counter]. lia.
  - unfold TWO_53. cbn. lia.
Qed.

Lemma reachable_counter n :
  Z.of_nat n <= TWO_53 -> reachable {| counter := Z.of_nat n |}.
Proof.
  induction n as [|n IH]; intros Hn; [exact reachable_initial|].
  assert (H : {| counter := Z.of_nat (S n) |} =
              execM CellId.create {| counter := Z.of_nat n |}).
  { unfold execM. rewrite create_run by (cbn [counter]; lia).
    cbn [snd counter]. f_equal. lia. }
  rewrite H. apply reachable_create, IH. lia.
Qed.

End Minting.

Section MintingClaims.

Import Number.

Lemma counter_after_saturated i :
  TWO_53 <= Z.of_nat i -> counter_after 0 i = TWO_53.
Proof. unfold counter_after. lia. Qed.

Lemma counter_after_exact i :
  Z.of_nat i <= TWO_53 -> counter_after 0 i = Z.of_nat i.
Proof. unfold counter_after. lia. Qed.

(** The calls numbered [2^53] and [2^53 + 1] after a reset (counting from
    zero) return the same identifier. *)
Lemma ids_after_reset_collision s :
  let n := Z.to_nat (TWO_53 + 2) in
  let i := Z.to_nat TWO_53 in
  nth_error (ids_after_reset n s) i = Some (toString TWO_53) /\
  nth_error (ids_after_reset n s) (S i) = Some (toString TWO_53).
Proof.
  intros n i.
  assert (Hi : Z.of_nat i = TWO_53) by (unfold i, TWO_53; lia).
  assert (Hn : Z.of_nat n = TWO_53 + 2) by (unfold n, TWO_53; lia).
  split.
  - rewrite ids_after_reset_nth by lia.
    rewrite counter_after_saturated by lia. reflexivity.
  - rewrite ids_after_reset_nth by lia.
    rewrite counter_after_saturated by lia. reflexivity.
Qed.

(** C1, as stated, fails: [2^53 + 2] calls of [create] after a reset do
    not return pairwise distinct identifiers, because the counter stays at
    [2^53] once it gets there. *)
Lemma create_ids_collide_past_two_53 :
  ~ NoDup (ids_after_reset (Z.to_nat (TWO_53 + 2)) initial).
Proof.
  intros Hnd.
  destruct (ids_after_reset_collision initial) as [H1 H2].
  cbv zeta in H1, H2.
  rewrite NoDup_nth_error in Hnd.
  assert (Hlt : (Z.to_nat TWO_53 <
                 List.length (ids_after_reset (Z.to_nat (TWO_53 + 2)) initial))%nat).
  { rewrite ids_after_reset_length. unfold TWO_53. lia. }
  specialize (Hnd _ (S (Z.to_nat TWO_53)) Hlt).
  rewrite H1, H2 in Hnd. specialize (Hnd eq_refl). lia.
Qed.

(** C1 (amended): for every [n] up to [2^53 + 1], [n] calls of
    [CellId.create()] made after a [CellId.reset()], with no reset in
    between, return [n] pairwise distinct identifiers. *)
Theorem create_ids_distinct (n : nat) (s : State) :
  Z.of_nat n <= TWO_53 + 1 -> NoDup (ids_after_reset n s).
Proof.
  intros Hn. rewrite ids_after_reset_eq.
  apply NoDup_map_NoDup_ForallPairs; [|apply seq_NoDup].
  intros i j Hi Hj Heq.
  apply in_seq in Hi, Hj.
  apply toString_inj in Heq.
  rewrite !counter_after_exact in Heq by lia. lia.
Qed.

Lemma create_ids_distinct_witness :
  NoDup (ids_after_reset 3 initial).
Proof. apply (create_ids_distinct 3 initial). unfold TWO_53. lia. Defined.

(** C3: a reset followed by [n] calls of [CellId.create()] returns the
    very sequence of identifiers that [n] calls return on a module that
    was never used, for every [n] and whatever happened before the
    reset. *)
Theorem reset_reproduces_fresh_sequence (n : nat) (s : State) :
  evalM (CellId.reset ;;; repeatM n CellId.create) s =
  evalM (repeatM n CellId.create) initial.
Proof. apply ids_after_reset_fresh. Qed.

(** C5: from the reset state, three calls of [CellId.create()] in a row
    return ["0"], ["1"] and ["2"], in that order. *)
Theorem create_thrice_after_reset (s : State) :
  evalM (CellId.reset ;;;
         a <- CellId.create ;;
         b <- CellId.create ;;
         c <- CellId.create ;;
         ret [a; b; c]) s = ["0"; "1"; "2"].
Proof. reflexivity. Qed.

(** C8, as stated, fails: among [2^53 + 2] identifiers minted after a
    reset the last two read as the same number. *)
Lemma create_ids_stall_past_two_53 :
  ~ strictly_increasing_ids (ids_after_reset (Z.to_nat (TWO_53 + 2)) initial).
Proof.
  intros Hinc.
  destruct (ids_after_reset_collision initial) as [H1 H2].
  cbv zeta in H1, H2.
  destruct (Hinc _ _ _ _ (Nat.lt_succ_diag_r _) H1 H2)
    as (a & b & Ha & Hb & Hab).
  rewrite Ha in Hb. injection Hb as ->. lia.
Qed.

(** C8 (amended): between two resets, as long as no more than [2^53 + 1]
    identifiers are minted, the identifiers returned by successive calls
    of [CellId.create()] are strictly increasing when read as natural
    numbers. *)
Theorem create_ids_increasing (n : nat) (s : State) :
  Z.of_nat n <= TWO_53 + 1 -> strictly_increasing_ids (ids_after_reset n s).
Proof.
  intros Hn i j x y Hij Hx Hy.
  assert (Hj : (j < n)%nat).
  { rewrite <- (ids_after_reset_length n s).
    apply nth_error_Some. congruence. }
  rewrite ids_after_reset_nth in Hx, Hy by lia.
  injection Hx as <-. injection Hy as <-.
  exists (Z.of_nat i), (Z.of_nat j).
  rewrite !counter_after_exact by lia.
  rewrite !ofString_toString. repeat split; lia.
Qed.

Lemma create_ids_increasing_witness :
  strictly_increasing_ids (ids_after_reset 3 initial).
Proof. apply (create_ids_increasing 3 initial). unfold TWO_53. lia. Defined.

(** C9, as stated, fails: the module can reach the state in which the
    counter holds [2^53], and there a call of [create] leaves the counter
    where it is. *)
Lemma create_stalls_at_two_53 :
  reachable {| counter := TWO_53 |} /\
  counter (execM (perform CellId_create) {| counter := TWO_53 |})
    <> counter {| counter := TWO_53 |} + 1.
Proof.
  split.
  - replace TWO_53 with (Z.of_nat (Z.to_nat TWO_53)) by (unfold TWO_53; lia).
    apply reachable_counter. unfold TWO_53. lia.
  - vm_compute. discriminate.
Qed.

(** C9 (amended): in every state the module can be in with the counter
    below [2^53], a call of [CellId.create()] advances the counter by
    exactly one; [HTMLCellId.create] and [HTMLCellId.parse] are pure: on
    every input and in every state they leave the module state as it is,
    and what they return does not depend on it. *)
Theorem create_advances_html_ops_pure (s : State) :
  reachable s -> counter s < TWO_53 ->
  counter (execM (perform CellId_create) s) = counter s + 1 /\
  (forall x s',
      execM (perform (HTMLCellId_create x)) s' = s' /\
      execM (perform (HTMLCellId_parse x)) s' = s') /\
  (forall x s' s'',
      evalM (perform (HTMLCellId_create x)) s' =
      evalM (perform (HTMLCellId_create x)) s'' /\
      evalM (perform (HTMLCellId_parse x)) s' =
      evalM (perform (HTMLCellId_parse x)) s'').
Proof.
  intros Hr Hlt. split; [|split; intros; split; reflexivity].
  unfold execM, perform, bind.
  rewrite create_run by lia. cbn [snd ret counter]. lia.
Qed.

Lemma create_advances_html_ops_pure_witness :
  counter (execM (perform CellId_create) initial) = counter initial + 1.
Proof.
  apply (create_advances_html_ops_pure initial).
  - exact reachable_initial.
  - unfold TWO_53. cbn. lia.
Defined.

End MintingClaims.

(** ** Strings *)

Section StringFacts.

Import JSString.

Lemma substring_whole s : substring 0 (String.length s) s = s.
Proof. induction s as [|a s IH]; simpl; [reflexivity|now rewrite IH]. Qed.

Lemma substring_drop n : forall s,
  substring n (String.length s - n) s = drop n s.
Proof.
  induction n as [|n IH]; intros s.
  - rewrite Nat.sub_0_r. apply substring_whole.
  - destruct s as [|a s]; [reflexivity|]. simpl. apply IH.
Qed.

Lemma drop_all n : forall s, (String.length s <= n)%nat -> drop n s = "".
Proof.
  induction n as [|n IH]; intros [|a s] Hlen; simpl in *;
    try reflexivity; try lia.
  apply IH. lia.
Qed.

Lemma drop_length n : forall s,
  String.length (drop n s) = (String.length s - n)%nat.
Proof.
  induction n as [|n IH]; intros [|a s]; simpl; try reflexivity; try lia.
  apply IH.
Qed.

Lemma drop_split n : forall s,
  exists p, s = p ++ drop n s /\
            String.length p = Nat.min n (String.length s).
Proof.
  induction n as [|n IH]; intros s.
  - exists "". split; reflexivity.
  - destruct s as [|a s].
    + exists "". split; reflexivity.
    + destruct (IH s) as (p & Hp & Hlen).
      exists (String a p). simpl. split; [now rewrite <- Hp|now rewrite Hlen].
Qed.

Lemma prefix_drop p : forall s,
  prefix p s = true -> s = p ++ drop (String.length p) s.
Proof.
  induction p as [|a p IH]; intros s H; [reflexivity|].
  destruct s as [|b s]; [discriminate|]. simpl in H.
  destruct (ascii_dec a b) as [->|]; [|discriminate].
  simpl. f_equal. now apply IH.
Qed.

Lemma prefix_app p s : prefix p (p ++ s) = true.
Proof.
  induction p as [|a p IH]; simpl; [now destruct s|].
  destruct (ascii_dec a a); [exact IH|congruence].
Qed.

(** [slice] from a position that is not negative drops that many
    positions. *)
Lemma slice_drop s k : 0 <= k -> slice s k = drop (Z.to_nat k) s.
Proof.
  intros Hk. unfold slice.
  destruct (k <? 0) eqn:Hneg; [apply Z.ltb_lt in Hneg; lia|].
  destruct (Z.of_nat (String.length s) <=? Z.min k (Z.of_nat (String.length s)))
    eqn:Hle.
  - apply Z.leb_le in Hle. symmetry. apply drop_all. lia.
  - apply Z.leb_gt in Hle.
    replace (Z.min k (Z.of_nat (String.length s))) with k by lia.
    replace (Z.to_nat (Z.of_nat (String.length s) - k))
      with (String.length s - Z.to_nat k)%nat by lia.
    apply substring_drop.
Qed.

Lemma parse_drop s : HTMLCellId.parse s = drop 5 s.
Proof. unfold HTMLCellId.parse. now rewrite slice_drop by lia. Qed.

End StringFacts.

(** ** Code units *)

Section CodeUnitFacts.

(** [slice] from a position that is not negative drops that many code
    units. *)
Lemma slice_units_skipn (s : UTF16.js_string) k :
  0 <= k -> UTF16.slice s k = skipn (Z.to_nat k) s.
Proof.
  intros Hk. unfold UTF16.slice.
  destruct (k <? 0) eqn:Hneg; [apply Z.ltb_lt in Hneg; lia|].
  destruct (Z.of_nat (List.length s) <=? Z.min k (Z.of_nat (List.length s)))
    eqn:Hle.
  - apply Z.leb_le in Hle. symmetry. apply skipn_all2. lia.
  - apply Z.leb_gt in Hle.
    replace (Z.min k (Z.of_nat (List.length s))) with k by lia.
    apply firstn_all2. rewrite length_skipn. lia.
Qed.

Lemma parse_units_skipn s : HTMLCellId.parse_units s = skipn 5 s.
Proof. unfold HTMLCellId.parse_units. now rewrite slice_units_skipn by lia. Qed.

Lemma skipn_length_app {A} (p c : list A) :
  skipn (List.length p) (p ++ c)%list = c.
Proof. induction p as [|a p IH]; simpl; [reflexivity|exact IH]. Qed.

Lemma of_ascii_string_drop n : forall s,
  UTF16.of_ascii_string (JSString.drop n s) =
  skipn n (UTF16.of_ascii_string s).
Proof.
  induction n as [|n IH]; intros [|c s]; simpl; try reflexivity. apply IH.
Qed.

(** On a string of the ASCII range, whose positions are its code units,
    [parse] and [parse_units] are the same function. *)
Lemma parse_units_of_ascii s :
  Str.is_ascii s = true ->
  HTMLCellId.parse_units (UTF16.of_ascii_string s) =
  UTF16.of_ascii_string (HTMLCellId.parse s).
Proof.
  intros _. now rewrite parse_units_skipn, parse_drop, of_ascii_string_drop.
Qed.

End CodeUnitFacts.

Section AnchorClaims.

(** C2: the round trip holds in both directions.  For every cell
    identifier [c], parsing the anchor made from [c] gives [c] back; for
    every well-formed anchor [x], one that begins with ["cell-"], making
    an anchor from what [x] parses to gives [x] back. *)
Theorem html_cell_id_round_trip :
  (forall c : string, HTMLCellId.parse (HTMLCellId.create c) = c) /\
  (forall x : string,
      well_formed_anchor x = true ->
      HTMLCellId.create (HTMLCellId.parse x) = x).
Proof.
  split.
  - intros c. rewrite parse_drop. reflexivity.
  - intros x Hx. rewrite parse_drop. unfold HTMLCellId.create.
    symmetry. exact (prefix_drop "cell-" x Hx).
Qed.

Lemma html_cell_id_round_trip_witness :
  HTMLCellId.parse (HTMLCellId.create "7") = "7" /\
  HTMLCellId.create (HTMLCellId.parse "cell-7") = "cell-7".
Proof.
  destruct html_cell_id_round_trip as [Hpc Hcp]. split.
  - apply (Hpc "7").
  - apply (Hcp "cell-7"). reflexivity.
Defined.

(** C4: for every cell identifier [c], [HTMLCellId.create(c)] is the
    concatenation of ["cell-"] and [c]: it begins with ["cell-"] and what
    follows those five positions is exactly [c].  In particular
    [HTMLCellId.create("0")] is ["cell-0"] and [HTMLCellId.parse("cell-0")]
    is ["0"]. *)
Theorem html_cell_id_format (c : string) :
  HTMLCellId.create c = "cell-" ++ c /\
  prefix "cell-" (HTMLCellId.create c) = true /\
  JSString.drop (String.length "cell-") (HTMLCellId.create c) = c /\
  String.length (HTMLCellId.create c) = (5 + String.length c)%nat /\
  HTMLCellId.create "0" = "cell-0" /\
  HTMLCellId.parse "cell-0" = "0".
Proof.
  repeat split.
  apply (prefix_app "cell-" c).
Qed.

(** C10: [HTMLCellId.parse] is defined on every string [s], whether or
    not it begins with ["cell-"]: it returns [s] without its first five
    code units, which is the empty string when [s] has five or fewer, and
    rejects nothing. *)
Theorem parse_total_drops_five (s : UTF16.js_string) :
  HTMLCellId.parse_units s = skipn 5 s /\
  (exists p, s = (p ++ HTMLCellId.parse_units s)%list /\
             List.length p = Nat.min 5 (List.length s)) /\
  List.length (HTMLCellId.parse_units s) = (List.length s - 5)%nat /\
  ((List.length s <= 5)%nat -> HTMLCellId.parse_units s = []).
Proof.
  rewrite parse_units_skipn. repeat split.
  - exists (firstn 5 s). split.
    + symmetry. apply firstn_skipn.
    + apply length_firstn.
  - apply length_skipn.
  - apply skipn_all2.
Qed.

(** ["abc"] parses to the empty string, and ["héllo world"], which does
    not begin with ["cell-"], to [" world"]. *)
Lemma parse_total_drops_five_witness :
  HTMLCellId.parse_units (UTF16.of_ascii_string "abc") = [] /\
  HTMLCellId.parse_units
    [104; 233; 108; 108; 111; 32; 119; 111; 114; 108; 100]%N =
    UTF16.of_ascii_string " world".
Proof.
  split.
  - apply (parse_total_drops_five (UTF16.of_ascii_string "abc")). simpl. lia.
  - destruct (parse_total_drops_five
                [104; 233; 108; 108; 111; 32; 119; 111; 114; 108; 100]%N)
      as [H _].
    exact H.
Defined.

End AnchorClaims.

(** ** Looking up the cell container *)

Section Closest.

(** Induction along the parent chain. *)
Lemma Element_chain_ind (P : Element -> Prop) :
  (forall name attrs, P (mkElement name attrs None)) ->
  (forall name attrs p, P p -> P (mkElement name attrs (Some p))) ->
  forall e, P e.
Proof.
  intros Hroot Hchild.
  fix IH 1. intros [name attrs [p|]].
  - apply Hchild, IH.
  - apply Hroot.
Qed.

Lemma inclusive_ancestors_self e : In e (inclusive_ancestors e).
Proof. destruct e. simpl. now left. Qed.

Lemma nearest_ancestor_In p e a :
  nearest_ancestor p e a -> In a (inclusive_ancestors e) /\ p a = true.
Proof.
  intros (closer & further & Heq & Hp & _). split; [|exact Hp].
  rewrite Heq. apply in_or_app. right. now left.
Qed.

Lemma nearest_ancestor_ext p q e a :
  (forall x, p x = q x) -> nearest_ancestor p e a -> nearest_ancestor q e a.
Proof.
  intros Hpq (closer & further & Heq & Hp & Hcl).
  exists closer, further. repeat split; [exact Heq|now rewrite <- Hpq|].
  eapply Forall_impl; [|exact Hcl]. intros x Hx. now rewrite <- Hpq.
Qed.

(** [closest] returns the nearest inclusive ancestor that matches, and
    [null] exactly when none matches. *)
Lemma closest_spec sel e :
  match closest sel e with
  | Some a => nearest_ancestor (matches sel) e a
  | None => Forall (fun x => matches sel x = false) (inclusive_ancestors e)
  end.
Proof.
  induction e as [name attrs|name attrs p IH] using Element_chain_ind.
  - simpl. destruct (matches sel _) eqn:Hm.
    + exists [], []. repeat split; [exact Hm|constructor].
    + repeat constructor. exact Hm.
  - simpl. destruct (matches sel _) eqn:Hm.
    + exists [], (inclusive_ancestors p). repeat split; [exact Hm|constructor].
    + destruct (closest sel p) as [a|].
      * destruct IH as (closer & further & Heq & Ha & Hcl).
        exists (mkElement name attrs (Some p) :: closer), further.
        repeat split; [simpl; now rewrite Heq|exact Ha|now constructor].
      * now constructor.
Qed.

(** The selector [div[id^="cell-"]] matches the [div] elements that carry
    an identifier of the DOM-anchor format. *)
Lemma matches_cell_container e :
  matches HTMLCellId.cell_container e = is_cell_div e.
Proof.
  unfold matches, HTMLCellId.cell_container, is_cell_div, has_anchor_id,
    well_formed_anchor.
  cbn [forallb matches_simple].
  destruct (getAttribute e "id") as [v|]; [|reflexivity].
  change (negb ("cell-" =? "")%string) with true.
  now rewrite andb_true_r.
Qed.

Lemma is_cell_div_has_anchor_id e :
  is_cell_div e = true -> has_anchor_id e = true.
Proof. unfold is_cell_div. intros H. now apply andb_true_iff in H. Qed.

Lemma findElement_spec e :
  match HTMLCellId.findElement e with
  | Some a => nearest_ancestor is_cell_div e a
  | None => Forall (fun x => is_cell_div x = false) (inclusive_ancestors e)
  end.
Proof.
  unfold HTMLCellId.findElement.
  pose proof (closest_spec HTMLCellId.cell_container e) as H.
  destruct (closest HTMLCellId.cell_container e) as [a|].
  - eapply nearest_ancestor_ext; [|exact H]. apply matches_cell_container.
  - eapply Forall_impl; [|exact H].
    intros x Hx. now rewrite <- matches_cell_container.
Qed.

(** C6, as stated, fails: a paragraph inside [<section id="cell-2">] has
    an ancestor whose identifier begins with ["cell-"], yet [findElement]
    finds nothing, because the selector only admits [div] elements. *)
Lemma findElement_skips_non_div :
  ~ (forall e : Element,
        (exists a, In a (inclusive_ancestors e) /\ has_anchor_id a = true) ->
        exists a, HTMLCellId.findElement e = Some a /\
                  nearest_ancestor has_anchor_id e a).
Proof.
  intros H.
  destruct (H Samples.para_in_section) as (a & Hfind & _).
  - exists Samples.section2. split; [|reflexivity].
    simpl. right. now left.
  - discriminate Hfind.
Qed.

(** C6 (amended): for every element that has an inclusive ancestor which
    is a [div] whose identifier begins with ["cell-"], [findElement]
    returns the nearest such ancestor, the element itself included. *)
Theorem findElement_nearest_cell_div (e : Element) :
  (exists a, In a (inclusive_ancestors e) /\ is_cell_div a = true) ->
  exists a, HTMLCellId.findElement e = Some a /\
            nearest_ancestor is_cell_div e a.
Proof.
  intros (a & Hin & Ha).
  pose proof (findElement_spec e) as H.
  destruct (HTMLCellId.findElement e) as [b|].
  - exists b. now split.
  - rewrite Forall_forall in H. rewrite (H a Hin) in Ha. discriminate.
Qed.

(** An element three levels inside [<div id="cell-2">], with no closer
    cell container, yields that [div]. *)
Lemma findElement_nearest_cell_div_witness :
  exists a, HTMLCellId.findElement Samples.span = Some a /\
            nearest_ancestor is_cell_div Samples.span a.
Proof.
  apply (findElement_nearest_cell_div Samples.span).
  exists Samples.cell2. split; [|reflexivity].
  simpl. right. right. right. now left.
Defined.

Example findElement_three_levels_deep :
  HTMLCellId.findElement Samples.span = Some Samples.cell2 /\
  getAttribute Samples.cell2 "id" = Some "cell-2".
Proof. split; reflexivity. Qed.

(** C7: for every element none of whose inclusive ancestors carries an
    identifier of the DOM-anchor format, [findElement] returns [null]; it
    is a total function and has no other outcome. *)
Theorem findElement_absent (e : Element) :
  (forall a, In a (inclusive_ancestors e) -> has_anchor_id a = false) ->
  HTMLCellId.findElement e = None.
Proof.
  intros Hnone.
  pose proof (findElement_spec e) as H.
  destruct (HTMLCellId.findElement e) as [b|]; [|reflexivity].
  apply nearest_ancestor_In in H. destruct H as [Hin Hb].
  apply is_cell_div_has_anchor_id in Hb.
  rewrite (Hnone b Hin) in Hb. discriminate.
Qed.

Lemma findElement_absent_witness :
  HTMLCellId.findElement Samples.button = None.
Proof.
  apply (findElement_absent Samples.button).
  simpl. intros a [<-|[<-|[<-|[]]]]; reflexivity.
Defined.

End Closest.

(** ** More on minting *)

Section MintingMore.

Import Number.

Lemma string_of_uint_digits d : all_digits (NilEmpty.string_of_uint d) = true.
Proof. induction d; simpl; auto. Qed.

Lemma string_of_uint_nonempty d :
  d <> Decimal.Nil -> NilEmpty.string_of_uint d <> "".
Proof. destruct d; simpl; congruence. Qed.

Lemma toString_numeral z : 0 <= z -> is_numeral (toString z) = true.
Proof.
  intros Hz. destruct z as [|p|p]; [reflexivity| |lia].
  unfold toString, is_numeral. cbn [Z.to_int NilZero.string_of_int].
  pose proof (DecimalPos.Unsigned.to_uint_nonnil p) as Hnil.
  assert (Heq : NilZero.string_of_uint (Pos.to_uint p) =
                NilEmpty.string_of_uint (Pos.to_uint p)).
  { destruct (Pos.to_uint p); [congruence|reflexivity..]. }
  rewrite Heq, string_of_uint_digits, andb_true_r.
  apply negb_true_iff, String.eqb_neq. now apply string_of_uint_nonempty.
Qed.

Lemma ids_after_reset_NoDup n s :
  Z.of_nat n <= TWO_53 + 1 -> NoDup (ids_after_reset n s).
Proof.
  intros Hn. rewrite ids_after_reset_eq.
  apply NoDup_map_NoDup_ForallPairs; [|apply seq_NoDup].
  intros i j Hi%in_seq Hj%in_seq Heq%toString_inj.
  rewrite !counter_after_exact in Heq by lia. lia.
Qed.

Lemma create_injective a b : HTMLCellId.create a = HTMLCellId.create b -> a = b.
Proof. unfold HTMLCellId.create. simpl. congruence. Qed.

Lemma drop_app p s : JSString.drop (String.length p) (p ++ s) = s.
Proof. induction p as [|a p IH]; simpl; [reflexivity|exact IH]. Qed.

Lemma firstn_seq_min k : forall start len,
  firstn k (seq start len) = seq start (Nat.min k len).
Proof.
  induction k as [|k IH]; intros start [|len]; try reflexivity.
  cbn [firstn seq Nat.min]. now rewrite IH.
Qed.

Lemma across_reset_run n m s :
  evalM (ids_across_reset n m) s = (ids_after_reset n s, ids_after_reset m s).
Proof.
  rewrite !ids_after_reset_fresh.
  unfold ids_across_reset, evalM, bind. rewrite reset_run.
  destruct (repeatM n CellId.create initial) as [a s1]. rewrite reset_run.
  destruct (repeatM m CellId.create initial) as [b s2]. reflexivity.
Qed.

(** X1: in every state the module can be in, the identifier [create]
    returns is a decimal numeral, digits only and not empty, and it reads
    back as the value the counter had before the call. *)
Theorem create_returns_counter_numeral (s : State) :
  reachable s ->
  is_numeral (evalM CellId.create s) = true /\
  ofString (evalM CellId.create s) = Some (counter s).
Proof.
  intros Hr. apply reachable_range in Hr.
  unfold evalM. rewrite create_run by lia. cbn [fst].
  split; [apply toString_numeral; lia|apply ofString_toString].
Qed.

Lemma create_returns_counter_numeral_witness :
  is_numeral (evalM CellId.create initial) = true /\
  ofString (evalM CellId.create initial) = Some (counter initial).
Proof. apply (create_returns_counter_numeral initial), reachable_initial. Defined.

(** X2: up to [2^53 + 1] calls, the identifiers minted after a reset are
    exactly the decimal numerals of [0], [1], ..., [n - 1], in that
    order. *)
Theorem ids_after_reset_are_numerals_in_order (n : nat) (s : State) :
  Z.of_nat n <= TWO_53 + 1 ->
  ids_after_reset n s = map (fun i => toString (Z.of_nat i)) (seq 0 n).
Proof.
  intros Hn. rewrite ids_after_reset_eq. apply map_ext_in.
  intros i Hi%in_seq. now rewrite counter_after_exact by lia.
Qed.

Lemma ids_after_reset_are_numerals_in_order_witness :
  ids_after_reset 4 initial = map (fun i => toString (Z.of_nat i)) (seq 0 4).
Proof.
  apply (ids_after_reset_are_numerals_in_order 4 initial). unfold TWO_53. lia.
Defined.

(** X3: the state in which the counter holds [2^53] can be reached, and
    from it every further call of [create] returns the same identifier,
    ["9007199254740992"], and leaves the counter where it is. *)
Theorem create_saturates (n : nat) :
  reachable saturated /\
  evalM (repeatM n CellId.create) saturated = repeat "9007199254740992" n /\
  execM (repeatM n CellId.create) saturated = saturated.
Proof.
  split.
  - unfold saturated.
    replace TWO_53 with (Z.of_nat (Z.to_nat TWO_53)) by (unfold TWO_53; lia).
    apply reachable_counter. unfold TWO_53. lia.
  - unfold evalM, execM. induction n as [|n [IHe IHx]]; [split; reflexivity|].
    rewrite repeatM_S.
    assert (Hc : CellId.create saturated = ("9007199254740992", saturated))
      by (vm_compute; reflexivity).
    rewrite Hc. cbn [fst snd repeat]. now rewrite IHe, IHx.
Qed.

(** X4: identifiers are reused across a reset: of [n] identifiers minted
    before a reset and [m] minted after it, the first [min n m] are the
    same on both sides. *)
Theorem ids_reused_across_reset (n m : nat) (s : State) :
  firstn (Nat.min n m) (fst (evalM (ids_across_reset n m) s)) =
  firstn (Nat.min n m) (snd (evalM (ids_across_reset n m) s)).
Proof.
  rewrite across_reset_run. cbn [fst snd].
  rewrite !ids_after_reset_eq, !firstn_map, !firstn_seq_min.
  f_equal. f_equal. lia.
Qed.

(** X5: [HTMLCellId.create] is injective, so the DOM anchors of up to
    [2^53 + 1] cells created after a reset are pairwise distinct. *)
Theorem created_anchors_distinct (n : nat) (s : State) :
  Z.of_nat n <= TWO_53 + 1 ->
  (forall a b, HTMLCellId.create a = HTMLCellId.create b -> a = b) /\
  NoDup (map HTMLCellId.create (ids_after_reset n s)).
Proof.
  intros Hn. split; [exact create_injective|].
  apply NoDup_map_NoDup_ForallPairs; [|now apply ids_after_reset_NoDup].
  intros a b _ _. apply create_injective.
Qed.

Lemma created_anchors_distinct_witness :
  NoDup (map HTMLCellId.create (ids_after_reset 3 initial)).
Proof.
  apply (created_anchors_distinct 3 initial). unfold TWO_53. lia.
Defined.

(** X6: [HTMLCellId.parse] does not look at the five code units it
    removes: whatever five code units stand in front of [c], parsing gives
    [c]. *)
Theorem parse_ignores_prefix (p c : UTF16.js_string) :
  List.length p = 5%nat -> HTMLCellId.parse_units (p ++ c)%list = c.
Proof. intros Hp. rewrite parse_units_skipn, <- Hp. apply skipn_length_app. Qed.

(** With the prefix ["ééabc"] in front of ["12"]. *)
Lemma parse_ignores_prefix_witness :
  HTMLCellId.parse_units ([233; 233; 97; 98; 99]%N ++ [49; 50]%N)%list =
  [49; 50]%N.
Proof.
  apply (parse_ignores_prefix [233; 233; 97; 98; 99]%N [49; 50]%N). reflexivity.
Defined.

(** X7: the counter stays within [0] and [2^53] in every state the module
    can be in, and a call of [create] never lowers it nor raises it by more
    than one. *)
Theorem counter_invariant (s : State) :
  reachable s ->
  0 <= counter s <= TWO_53 /\
  counter s <= counter (execM CellId.create s) <= counter s + 1.
Proof.
  intros Hr. pose proof (reachable_range s Hr) as Hs. split; [exact Hs|].
  unfold execM. rewrite create_run by lia. cbn [snd counter]. lia.
Qed.

Lemma counter_invariant_witness :
  0 <= counter initial <= TWO_53 /\
  counter initial <= counter (execM CellId.create initial) <= counter initial + 1.
Proof. apply (counter_invariant initial), reachable_initial. Defined.

End MintingMore.

(** ** More on the cell container lookup *)

Section ClosestMore.

Lemma closest_of_match sel a : matches sel a = true -> closest sel a = Some a.
Proof. intros Hm. destruct a as [name attrs parent]. simpl. now rewrite Hm. Qed.

(** An ancestor's chain is no longer than the chain of the element it is
    an ancestor of. *)
Lemma ancestor_chain_shorter x : forall y,
  In y (inclusive_ancestors x) ->
  (List.length (inclusive_ancestors y) <= List.length (inclusive_ancestors x))%nat.
Proof.
  induction x as [name attrs|name attrs p IH] using Element_chain_ind;
    intros y Hy.
  - destruct Hy as [<-|[]]. lia.
  - destruct Hy as [<-|Hy]; [lia|].
    apply IH in Hy. cbn [inclusive_ancestors parentElement List.length]. lia.
Qed.

Lemma closest_shared sel e : forall a x,
  closest sel e = Some a ->
  In x (inclusive_ancestors e) ->
  In a (inclusive_ancestors x) ->
  closest sel x = Some a.
Proof.
  induction e as [name attrs|name attrs p IH] using Element_chain_ind;
    intros a x Hc Hx Ha.
  - destruct Hx as [<-|[]]. exact Hc.
  - destruct Hx as [<-|Hx]; [exact Hc|].
    simpl in Hc. destruct (matches sel _) eqn:Hm.
    + injection Hc as <-.
      apply ancestor_chain_shorter in Hx, Ha.
      cbn [inclusive_ancestors parentElement List.length] in Ha. lia.
    + now apply IH.
Qed.

(** X8: [findElement] returns [null] exactly when no inclusive ancestor of
    the element is a [div] whose [id] begins with ["cell-"]. *)
Theorem findElement_null_iff (e : Element) :
  HTMLCellId.findElement e = None <->
  Forall (fun x => is_cell_div x = false) (inclusive_ancestors e).
Proof.
  pose proof (findElement_spec e) as H. split.
  - intros Hn. now rewrite Hn in H.
  - intros Hall. destruct (HTMLCellId.findElement e) as [a|]; [|reflexivity].
    apply nearest_ancestor_In in H. destruct H as [Hin Ha].
    rewrite Forall_forall in Hall. rewrite (Hall a Hin) in Ha. discriminate.
Qed.

(** X9: what [findElement] returns is an inclusive ancestor of the
    element, is a [div], and has an [id] that is a well-formed anchor: the
    [id] begins with ["cell-"] and is the anchor of the cell identifier it
    parses to. *)
Theorem findElement_result_is_anchor (e a : Element) :
  HTMLCellId.findElement e = Some a ->
  In a (inclusive_ancestors e) /\
  localName a = "div" /\
  exists id, getAttribute a "id" = Some id /\
             well_formed_anchor id = true /\
             HTMLCellId.create (HTMLCellId.parse id) = id.
Proof.
  intros Hf. pose proof (findElement_spec e) as H. rewrite Hf in H.
  apply nearest_ancestor_In in H. destruct H as [Hin Ha].
  split; [exact Hin|].
  unfold is_cell_div, has_anchor_id in Ha.
  apply andb_true_iff in Ha. destruct Ha as [Hdiv Hid].
  apply String.eqb_eq in Hdiv. split; [exact Hdiv|].
  destruct (getAttribute a "id") as [id|]; [|discriminate].
  exists id. repeat split; [exact Hid|].
  rewrite parse_drop. unfold HTMLCellId.create.
  symmetry. exact (prefix_drop "cell-" id Hid).
Qed.

Lemma findElement_result_is_anchor_witness :
  In Samples.cell2 (inclusive_ancestors Samples.span) /\
  localName Samples.cell2 = "div" /\
  exists id, getAttribute Samples.cell2 "id" = Some id /\
             well_formed_anchor id = true /\
             HTMLCellId.create (HTMLCellId.parse id) = id.
Proof.
  apply (findElement_result_is_anchor Samples.span Samples.cell2). reflexivity.
Defined.

(** X10: looking up the container of a container gives that container
    again. *)
Theorem findElement_idempotent (e a : Element) :
  HTMLCellId.findElement e = Some a -> HTMLCellId.findElement a = Some a.
Proof.
  intros Hf. pose proof (findElement_spec e) as H. rewrite Hf in H.
  apply nearest_ancestor_In in H. destruct H as [_ Ha].
  apply closest_of_match. now rewrite matches_cell_container.
Qed.

Lemma findElement_idempotent_witness :
  HTMLCellId.findElement Samples.cell2 = Some Samples.cell2.
Proof.
  apply (findElement_idempotent Samples.span Samples.cell2). reflexivity.
Defined.

(** X11: every element on the way from an element up to its container has
    that same container. *)
Theorem findElement_shared_along_path (e a x : Element) :
  HTMLCellId.findElement e = Some a ->
  In x (inclusive_ancestors e) ->
  In a (inclusive_ancestors x) ->
  HTMLCellId.findElement x = Some a.
Proof. apply closest_shared. Qed.

Lemma findElement_shared_along_path_witness :
  HTMLCellId.findElement Samples.output = Some Samples.cell2.
Proof.
  apply (findElement_shared_along_path Samples.span Samples.cell2 Samples.output).
  - reflexivity.
  - simpl. right. right. now left.
  - simpl. right. now left.
Defined.

End ClosestMore.

(** ** Hotkey labels *)

Section HotkeyFacts.

Import Str Hotkey.

Local Abbreviation dash := ("-"%char).

Ltac each_char c :=
  destruct c as [[] [] [] [] [] [] [] []]; try reflexivity.

Lemma lower_char_idem c : lower_char (lower_char c) = lower_char c.
Proof. each_char c. Qed.

Lemma lower_char_dash c : Ascii.eqb (lower_char c) dash = Ascii.eqb c dash.
Proof. each_char c. Qed.

Lemma toLowerCase_idem s : toLowerCase (toLowerCase s) = toLowerCase s.
Proof.
  induction s as [|c s IH]; simpl; [reflexivity|].
  now rewrite lower_char_idem, IH.
Qed.

Lemma split_nonempty sep s : split sep s <> [].
Proof.
  destruct s as [|c s]; simpl; [discriminate|].
  destruct (Ascii.eqb c sep); [discriminate|].
  destruct (split sep s); discriminate.
Qed.

Lemma split_length sep s : List.length (split sep s) = S (count_char sep s).
Proof.
  induction s as [|c s IH]; simpl; [reflexivity|].
  destruct (Ascii.eqb c sep); simpl; [now rewrite IH|].
  destruct (split sep s) as [|piece pieces] eqn:Hs; [discriminate IH|exact IH].
Qed.

Lemma split_app sep a b :
  split sep (a ++ String sep b) = (split sep a ++ split sep b)%list.
Proof.
  induction a as [|c a IH]; simpl.
  - now rewrite Ascii.eqb_refl.
  - rewrite IH. destruct (Ascii.eqb c sep); [reflexivity|].
    pose proof (split_nonempty sep a) as Hne.
    destruct (split sep a) as [|piece pieces]; [congruence|reflexivity].
Qed.

Lemma split_pieces_clean sep s :
  Forall (fun piece => count_char sep piece = O) (split sep s).
Proof.
  induction s as [|c s IH]; simpl; [repeat constructor|].
  destruct (Ascii.eqb c sep) eqn:Hc; [constructor; [reflexivity|exact IH]|].
  destruct (split sep s) as [|piece pieces]; simpl.
  - repeat constructor. simpl. now rewrite Hc.
  - inversion IH as [|? ? Hp Hps]; subst. constructor; [|exact Hps].
    simpl. now rewrite Hc, Hp.
Qed.

Lemma split_clean sep s : count_char sep s = O -> split sep s = [s].
Proof.
  induction s as [|c s IH]; simpl; [reflexivity|].
  destruct (Ascii.eqb c sep); [discriminate|].
  intros Hs. now rewrite IH.
Qed.

Lemma split_toLowerCase s :
  split dash (toLowerCase s) = map toLowerCase (split dash s).
Proof.
  induction s as [|c s IH]; simpl; [reflexivity|].
  rewrite lower_char_dash, IH.
  destruct (Ascii.eqb c dash); [reflexivity|].
  destruct (split dash s); reflexivity.
Qed.

Lemma count_dash_toLowerCase s :
  count_char dash (toLowerCase s) = count_char dash s.
Proof.
  induction s as [|c s IH]; simpl; [reflexivity|].
  now rewrite lower_char_dash, IH.
Qed.

(** The label is one of the fixed ones of the platform or the key in lower
    case. *)
Lemma key_label_cases mac key :
  In (key_label mac key)
     (if mac then [COMMAND; "shift"; OPTION; CONTROL]
      else [COMMAND; "ctrl"; "shift"; "alt"]) \/
  (key_label mac key = toLowerCase key /\
   forall name, In name ["cmd"; "meta"; "shift"; "alt"; "control"; "ctrl"] ->
                toLowerCase key <> name).
Proof.
  unfold key_label. cbv zeta.
  destruct (String.eqb_spec (toLowerCase key) "cmd");
    [left; destruct mac; simpl; tauto|].
  destruct (String.eqb_spec (toLowerCase key) "meta");
    [left; destruct mac; simpl; tauto|].
  destruct (String.eqb_spec (toLowerCase key) "shift");
    [left; destruct mac; simpl; tauto|].
  destruct (String.eqb_spec (toLowerCase key) "alt");
    [left; destruct mac; simpl; tauto|].
  destruct (String.eqb_spec (toLowerCase key) "control");
    [left; destruct mac; simpl; tauto|].
  destruct (String.eqb_spec (toLowerCase key) "ctrl");
    [left; destruct mac; simpl; tauto|].
  right. split; [reflexivity|].
  intros name [<-|[<-|[<-|[<-|[<-|[<-|[]]]]]]]; assumption.
Qed.

Lemma key_label_lower mac key :
  key_label mac (toLowerCase key) = key_label mac key.
Proof. unfold key_label. now rewrite toLowerCase_idem. Qed.

Lemma key_label_idem mac key :
  key_label mac (key_label mac key) = key_label mac key.
Proof.
  destruct (key_label_cases mac key) as [Hin|[Heq _]].
  - destruct mac; destruct Hin as [<-|[<-|[<-|[<-|[]]]]]; reflexivity.
  - rewrite Heq at 1. apply key_label_lower.
Qed.

Lemma key_label_clean mac key :
  count_char dash key = O -> count_char dash (key_label mac key) = O.
Proof.
  intros Hk. destruct (key_label_cases mac key) as [Hin|[Heq _]].
  - destruct mac; destruct Hin as [<-|[<-|[<-|[<-|[]]]]]; reflexivity.
  - now rewrite Heq, count_dash_toLowerCase.
Qed.

Lemma key_label_platform key :
  key_label true key = key_label false key <-> platform_neutral key = true.
Proof.
  unfold key_label, platform_neutral. cbv zeta.
  destruct (String.eqb_spec (toLowerCase key) "cmd") as [->|_];
    [split; reflexivity|].
  destruct (String.eqb_spec (toLowerCase key) "meta") as [->|_];
    [split; discriminate|].
  destruct (String.eqb_spec (toLowerCase key) "shift") as [->|_];
    [split; reflexivity|].
  destruct (String.eqb_spec (toLowerCase key) "alt") as [->|_];
    [split; discriminate|].
  destruct (String.eqb_spec (toLowerCase key) "control") as [->|_];
    [split; discriminate|].
  destruct (String.eqb_spec (toLowerCase key) "ctrl") as [->|_];
    [split; discriminate|].
  split; reflexivity.
Qed.

Lemma prettyPrintHotkey_lower mac keyboard :
  prettyPrintHotkey mac (toLowerCase keyboard) = prettyPrintHotkey mac keyboard.
Proof.
  unfold prettyPrintHotkey. rewrite split_toLowerCase, map_map.
  apply map_ext. intros key. apply key_label_lower.
Qed.

End HotkeyFacts.

Section HotkeyProperties.

Import Str Hotkey.

Local Abbreviation dash := ("-"%char).

(** X12: [prettyPrintHotkey] returns one label for each piece of the
    hotkey: one more than there are dashes in it, so never an empty list;
    the empty hotkey gives one label. *)
Theorem prettyPrintHotkey_length (mac : bool) (keyboard : string) :
  List.length (prettyPrintHotkey mac keyboard) = S (count_char dash keyboard).
Proof. unfold prettyPrintHotkey. now rewrite length_map, split_length. Qed.

(** X13: the labels of two hotkeys joined by a dash are the labels of the
    first followed by the labels of the second, and the empty hotkey has
    the one label [""]; so a hotkey that ends in a dash gets an empty last
    label. *)
Theorem prettyPrintHotkey_app (mac : bool) (a b : string) :
  prettyPrintHotkey mac (a ++ "-" ++ b) =
    (prettyPrintHotkey mac a ++ prettyPrintHotkey mac b)%list /\
  prettyPrintHotkey mac "" = [""] /\
  prettyPrintHotkey mac (a ++ "-") = (prettyPrintHotkey mac a ++ [""])%list.
Proof.
  unfold prettyPrintHotkey. repeat split.
  - change ("-" ++ b) with (String dash b). now rewrite split_app, map_app.
  - change "-" with (String dash ""). now rewrite split_app, map_app.
Qed.

(** X14: key names are read without regard to case: two hotkeys of the
    ASCII range that are the same in lower case have the same labels. *)
Theorem prettyPrintHotkey_case_insensitive (mac : bool) (k1 k2 : string) :
  is_ascii k1 = true -> is_ascii k2 = true ->
  toLowerCase k1 = toLowerCase k2 ->
  prettyPrintHotkey mac k1 = prettyPrintHotkey mac k2.
Proof.
  intros _ _ Heq.
  rewrite <- (prettyPrintHotkey_lower mac k1), <- (prettyPrintHotkey_lower mac k2).
  now rewrite Heq.
Qed.

Lemma prettyPrintHotkey_case_insensitive_witness :
  prettyPrintHotkey true "CMD-Shift-K" = prettyPrintHotkey true "cmd-shift-k".
Proof.
  apply (prettyPrintHotkey_case_insensitive true "CMD-Shift-K" "cmd-shift-k");
    reflexivity.
Defined.

(** X15: no label of a hotkey of the ASCII range contains a dash. *)
Theorem prettyPrintHotkey_labels_have_no_dash (mac : bool) (keyboard : string) :
  is_ascii keyboard = true ->
  Forall (fun label => count_char dash label = O)
         (prettyPrintHotkey mac keyboard).
Proof.
  intros _. unfold prettyPrintHotkey. apply Forall_map.
  eapply Forall_impl; [|apply split_pieces_clean].
  intros key. apply key_label_clean.
Qed.

Lemma prettyPrintHotkey_labels_have_no_dash_witness :
  Forall (fun label => count_char dash label = O)
         (prettyPrintHotkey false "Ctrl-Alt--").
Proof.
  apply (prettyPrintHotkey_labels_have_no_dash false "Ctrl-Alt--"). reflexivity.
Defined.

(** X16: a hotkey of the ASCII range has the same labels on a Mac as
    elsewhere exactly when none of its pieces is [meta], [alt], [control]
    or [ctrl], in whatever case. *)
Theorem prettyPrintHotkey_platform_independent (keyboard : string) :
  is_ascii keyboard = true ->
  (prettyPrintHotkey true keyboard = prettyPrintHotkey false keyboard <->
   Forall (fun key => platform_neutral key = true) (split dash keyboard)).
Proof.
  intros _. unfold prettyPrintHotkey.
  induction (split dash keyboard) as [|key keys IH]; simpl.
  - split; [constructor|reflexivity].
  - split.
    + intros [= Hk Hks]. constructor; [now apply key_label_platform|now apply IH].
    + intros Hall. inversion Hall as [|? ? Hk Hks]; subst. f_equal.
      * now apply key_label_platform.
      * now apply IH.
Qed.

Lemma prettyPrintHotkey_platform_independent_witness :
  prettyPrintHotkey true "Cmd-Shift-Enter" = prettyPrintHotkey false "Cmd-Shift-Enter".
Proof.
  apply (prettyPrintHotkey_platform_independent "Cmd-Shift-Enter");
    [reflexivity|].
  repeat constructor.
Defined.

(** X17: labels are final: printing a label of a hotkey of the ASCII range
    as a hotkey of its own gives just that label. *)
Theorem prettyPrintHotkey_labels_stable (mac : bool) (keyboard : string) :
  is_ascii keyboard = true ->
  Forall (fun label => prettyPrintHotkey mac label = [label])
         (prettyPrintHotkey mac keyboard).
Proof.
  intros _. unfold prettyPrintHotkey at 2. apply Forall_map.
  eapply Forall_impl; [|apply (split_pieces_clean dash)].
  intros key Hkey. unfold prettyPrintHotkey.
  rewrite split_clean by now apply key_label_clean.
  simpl. now rewrite key_label_idem.
Qed.

Lemma prettyPrintHotkey_labels_stable_witness :
  Forall (fun label => prettyPrintHotkey true label = [label])
         (prettyPrintHotkey true "Meta-Alt-ArrowUp").
Proof.
  apply (prettyPrintHotkey_labels_stable true "Meta-Alt-ArrowUp"). reflexivity.
Defined.

End HotkeyProperties.

(** ** From a descendant back to the cell identifier *)

Section ContainerRecovery.

Lemma inclusive_ancestors_head e rest x :
  inclusive_ancestors e = x :: rest ->
  x = e /\ rest = match parentElement e with
                  | Some p => inclusive_ancestors p
                  | None => []
                  end.
Proof. destruct e as [name attrs parent]. simpl. intros [= <- <-]. now split. Qed.

Lemma closest_of_nearest sel closer : forall e a further,
  inclusive_ancestors e = (closer ++ a :: further)%list ->
  matches sel a = true ->
  Forall (fun x => matches sel x = false) closer ->
  closest sel e = Some a.
Proof.
  induction closer as [|x closer IH]; intros e a further Heq Ha Hcl.
  - apply inclusive_ancestors_head in Heq. destruct Heq as [-> _].
    now apply closest_of_match.
  - apply inclusive_ancestors_head in Heq. destruct Heq as [-> Hrest].
    inversion Hcl as [|? ? Hx Hcl']; subst.
    destruct e as [name attrs [p|]]; simpl in *.
    + rewrite Hx. now apply (IH p a further).
    + destruct closer; discriminate Hrest.
Qed.

(** X18: from any element inside a cell's container the cell identifier
    can be recovered: when the nearest [div] with an anchor [id] above the
    element carries the anchor made from [c], [findElement] returns that
    [div], and parsing its [id] gives [c]. *)
Theorem cell_id_recovered_from_descendant (e a : Element) (c : string) :
  nearest_ancestor is_cell_div e a ->
  getAttribute a "id" = Some (HTMLCellId.create c) ->
  HTMLCellId.findElement e = Some a /\
  option_map HTMLCellId.parse (getAttribute a "id") = Some c.
Proof.
  intros (closer & further & Heq & Ha & Hcl) Hid. split.
  - unfold HTMLCellId.findElement.
    apply (closest_of_nearest _ closer e a further Heq).
    + now rewrite matches_cell_container.
    + eapply Forall_impl; [|exact Hcl].
      intros x Hx. now rewrite matches_cell_container.
  - rewrite Hid. cbn [option_map]. now rewrite parse_drop.
Qed.

Lemma cell_id_recovered_from_descendant_witness :
  HTMLCellId.findElement Samples.span = Some Samples.cell2 /\
  option_map HTMLCellId.parse (getAttribute Samples.cell2 "id") = Some "2".
Proof.
  apply (cell_id_recovered_from_descendant Samples.span Samples.cell2 "2").
  - exists [Samples.span; Samples.para; Samples.output], [Samples.body].
    repeat split. repeat constructor.
  - reflexivity.
Defined.

End ContainerRecovery.
